(** * pde: a multi-process dispatcher ([src/pde.py])

    A shallow embedding of the class [ProcessDivisionier] and of the part of
    [concurrent.futures] and [tqdm] that its method [run] drives, followed by
    the properties of the argument registry and of the dispatcher. *)

From Stdlib Require Import List ZArith String Bool Lia Permutation.
Import ListNotations.
Local Open Scope string_scope.
Local Open Scope list_scope.
Local Open Scope Z_scope.

Set Implicit Arguments.
Set Warnings "-register-all".

(** ** Python values and exceptions *)

(** The fragment of Python's value universe that argument tuples and results
    are drawn from. *)
Inductive value : Type :=
| VNone
| VInt (z : Z)
| VStr (s : string)
| VTuple (items : list value)
| VList (items : list value).

(** An exception object: its class and its message.  Every exception of the
    model is an instance of [Exception]; a [BaseException] outside
    [Exception], such as [SystemExit] or [KeyboardInterrupt], is not
    modelled. *)
Record exn : Type := mkExn { exn_class : string; exn_msg : string }.

Definition TypeError (msg : string) : exn := mkExn "TypeError" msg.
Definition ValueError (msg : string) : exn := mkExn "ValueError" msg.

(** The outcome of a call: a returned value or a raised exception. *)
Inductive result (A : Type) : Type :=
| Return (a : A)
| Raise (e : exn).
Arguments Return {A} a.
Arguments Raise {A} e.

(** [isinstance(v, tuple)] *)
Definition isinstance_tuple (v : value) : bool :=
  match v with
  | VTuple _ => true
  | _ => false
  end.

(** ** A state and exception monad

    A method is a function of the state it may mutate; when it raises, the
    mutations made before the [raise] stay. *)
Section StateExn.
Variable S : Type.

Definition M (A : Type) : Type := S -> result A * S.

Definition ret {A} (a : A) : M A := fun s => (Return a, s).

Definition raise {A} (e : exn) : M A := fun s => (Raise e, s).

Definition bind {A B} (m : M A) (k : A -> M B) : M B :=
  fun s =>
    match m s with
    | (Return a, s') => k a s'
    | (Raise e, s') => (Raise e, s')
    end.

Definition gets {A} (proj : S -> A) : M A := fun s => (Return (proj s), s).

Definition modify (upd : S -> S) : M unit := fun s => (Return tt, upd s).
End StateExn.

Arguments ret {S A} a.
Arguments raise {S A} e.
Arguments bind {S A B} m k.
Arguments gets {S A} proj.
Arguments modify {S} upd.

Declare Scope py_scope.
Delimit Scope py_scope with py.
Notation "x <- m ;; k" := (bind m (fun x => k))
  (at level 61, m at next level, right associativity) : py_scope.
Notation "m ;; k" := (bind m (fun _ => k))
  (at level 61, right associativity) : py_scope.
Local Open Scope py_scope.

(** ** The class [ProcessDivisionier] *)

(** The worker function, applied to the unpacked positional arguments: a
    unit of work returns a value or raises an instance of [Exception]. *)
Definition FUNC : Type := list value -> result value.

Record ProcessDivisionier : Type := mkPD {
  __f : FUNC;
  __all_args : list value;
  __num_of_process : Z
}.

Definition with_all_args (l : list value) (self : ProcessDivisionier) :=
  mkPD (__f self) l (__num_of_process self).

Definition with_num_of_process (n : Z) (self : ProcessDivisionier) :=
  mkPD (__f self) (__all_args self) n.

(** [len(self.__all_args)] *)
Definition len (l : list value) : Z := Z.of_nat (List.length l).

(** [__init__] *)
Definition init (func : FUNC) : ProcessDivisionier := mkPD func [] 1.

(** [show_args] *)
Definition show_args : M ProcessDivisionier (list value) :=
  gets __all_args.

(** [add_args]: the positional arguments arrive packed in the tuple [args]. *)
Definition add_args (args : list value) : M ProcessDivisionier unit :=
  modify (fun self => with_all_args (__all_args self ++ [VTuple args]) self) ;;
  modify (fun self => with_num_of_process (len (__all_args self)) self).

(** [set_allargs(all_args, mode='w')] *)
Definition set_allargs (all_args : list value) (mode : string)
  : M ProcessDivisionier unit :=
  (if String.eqb mode "w" then modify (with_all_args []) else ret tt) ;;
  if existsb (fun args => negb (isinstance_tuple args)) all_args
  then raise (TypeError "与える引数はタプルでまとめてください")
  else
    modify (fun self => with_all_args (__all_args self ++ all_args) self) ;;
    modify (fun self => with_num_of_process (len (__all_args self)) self).

(** [set_processes(num_of_process)]; a list times a negative number is the
    empty list. *)
Definition set_processes (num_of_process : Z) : M ProcessDivisionier unit :=
  modify (with_num_of_process num_of_process) ;;
  modify (fun self =>
            with_all_args (repeat (VTuple []) (Z.to_nat (__num_of_process self)))
                          self).

(** ** The collaborators of [run]: the process pool and the progress bar

    What [run] does to the outside is recorded as a trace of events. *)
Inductive event : Type :=
| PoolCreated (max_workers : option Z)
| Submitted (args : list value)
| PbarCreated (total : Z)
| PbarUpdate (n : Z)
| CallbackFailed (e : exn)
| PoolShutdown.

Record World : Type := mkWorld {
  obj : ProcessDivisionier;
  trace : list event
}.

(** A method of the object, run in the larger state. *)
Definition on_self {A} (m : M ProcessDivisionier A) : M World A :=
  fun w => let (r, self') := m (obj w) in (r, mkWorld self' (trace w)).

Definition emit (ev : event) : M World unit :=
  modify (fun w => mkWorld (obj w) (trace w ++ [ev])).

Definition of_result {S A} (r : result A) : M S A :=
  match r with
  | Return a => ret a
  | Raise e => raise e
  end.

(** A list comprehension whose body has effects. *)
Fixpoint for_each {S A B} (body : A -> M S B) (l : list A) : M S (list B) :=
  match l with
  | [] => ret []
  | a :: l' =>
      b <- body a ;;
      bs <- for_each body l' ;;
      ret (b :: bs)
  end.

(** A future is represented by the outcome its unit of work ends with. *)
Definition Future : Type := result value.

(** [ProcessPoolExecutor(max_workers=workers)]: [None] asks for the default
    size, a size that is not positive is refused. *)
Definition ProcessPoolExecutor (max_workers : option Z) : M World unit :=
  match max_workers with
  | Some n =>
      if n <=? 0
      then raise (ValueError "max_workers must be greater than 0")
      else emit (PoolCreated max_workers)
  | None => emit (PoolCreated max_workers)
  end.

(** [with ProcessPoolExecutor(...) as e: body]: the pool is shut down (and
    its workers joined) on every way out of [body]. *)
Definition with_pool {A} (max_workers : option Z) (body : M World A)
  : M World A :=
  ProcessPoolExecutor max_workers ;;
  fun w =>
    let (r, w') := body w in
    (r, mkWorld (obj w') (trace w' ++ [PoolShutdown])).

(** The argument unpacking of a call [g( *args)]. *)
Definition unpack (args : value) : result (list value) :=
  match args with
  | VTuple items => Return items
  | VList items => Return items
  | VStr s =>
      Return (map (fun c => VStr (String c EmptyString)) (list_ascii_of_string s))
  | VNone => Raise (TypeError "argument after * must be an iterable, not NoneType")
  | VInt _ => Raise (TypeError "argument after * must be an iterable, not int")
  end.

(** [e.submit(fn, *args)]: the unit runs in a worker process and its outcome,
    a value or an exception, is stored in the future. *)
Definition submit (fn : FUNC) (args : value) : M World Future :=
  items <- of_result (unpack args) ;;
  emit (Submitted items) ;;
  ret (fn items).

(** The callback [update] of [run]; [results] is the list it closes over. *)
Definition update (future : Future) (results : list value)
  : M World (list value) :=
  emit (PbarUpdate 1) ;;
  match future with
  | Raise exception => raise exception
  | Return r => ret (results ++ [r])
  end.

(** How a future of [concurrent.futures] calls a done-callback, as the
    library documents it: an instance of [Exception] that the callback
    raises is logged and ignored.  The library catches [Exception] only;
    every [exn] of the model is one, so every [Raise] is dropped here. *)
Definition invoke_callback (fn : Future -> list value -> M World (list value))
    (future : Future) (results : list value) : M World (list value) :=
  fun w =>
    match fn future results w with
    | (Return results', w') => (Return results', w')
    | (Raise e, w') =>
        (Return results, mkWorld (obj w') (trace w' ++ [CallbackFailed e]))
    end.

(** [[f.add_done_callback(update) for f in fs]; futures.wait(fs)] and the
    join of the pool: every future completes and its callback is called, in
    the order [sched] in which the units happen to finish (positions in
    [fs]). *)
Fixpoint complete (fs : list Future) (sched : list nat) (results : list value)
  : M World (list value) :=
  match sched with
  | [] => ret results
  | i :: sched' =>
      match nth_error fs i with
      | Some future =>
          results' <- invoke_callback update future results ;;
          complete fs sched' results'
      | None => complete fs sched' results
      end
  end.

(** [run(workers, all_args=None)], for the completion order [sched]. *)
Definition run (sched : list nat) (workers : option Z)
    (all_args : option (list value)) : M World (list value) :=
  match all_args with
  | Some given => on_self (set_allargs given "w")
  | None => ret tt
  end ;;
  with_pool workers (
    fn <- gets (fun w => __f (obj w)) ;;
    registry <- gets (fun w => __all_args (obj w)) ;;
    fs <- for_each (submit fn) registry ;;
    emit (PbarCreated (Z.of_nat (List.length fs))) ;;
    complete fs sched []).

(** ** Vocabulary of the properties *)

(** A completion order of [n] units: every position once. *)
Definition completion_order (n : nat) (sched : list nat) : Prop :=
  Permutation sched (seq 0 n).

(** A pool size that [ProcessPoolExecutor] accepts. *)
Definition valid_workers (workers : option Z) : bool :=
  match workers with
  | Some n => negb (n <=? 0)
  | None => true
  end.

(** Every element of the registry is a tuple. *)
Definition registry_ok (self : ProcessDivisionier) : Prop :=
  Forall (fun args => isinstance_tuple args = true) (__all_args self).

(** The worker function returns on every registered tuple. *)
Definition always_succeeds (self : ProcessDivisionier) : Prop :=
  forall items, In (VTuple items) (__all_args self) ->
                exists r, __f self items = Return r.

(** The advance-by-one events that the progress bar received. *)
Fixpoint advances (tr : list event) : nat :=
  match tr with
  | [] => O
  | PbarUpdate 1 :: tr' => S (advances tr')
  | _ :: tr' => advances tr'
  end.

(** The argument tuples of the submitted units, in submission order. *)
Fixpoint submitted (tr : list event) : list value :=
  match tr with
  | [] => []
  | Submitted items :: tr' => VTuple items :: submitted tr'
  | _ :: tr' => submitted tr'
  end.

(** The worker functions of the two concrete scenarios: the square, and the
    square that raises [ValueError] on 3. *)
Definition square (args : list value) : result value :=
  match args with
  | [VInt x] => Return (VInt (x * x))
  | _ => Raise (TypeError "square() takes one integer")
  end.

Definition square_not_3 (args : list value) : result value :=
  match args with
  | [VInt x] =>
      if x =? 3 then Raise (ValueError "x == 3") else Return (VInt (x * x))
  | _ => Raise (TypeError "square_not_3() takes one integer")
  end.

Definition one_to_four : list value :=
  [VTuple [VInt 1]; VTuple [VInt 2]; VTuple [VInt 3]; VTuple [VInt 4]].

(** The cached unit count agrees with the registry. *)
Definition count_cached (self : ProcessDivisionier) : Prop :=
  __num_of_process self = len (__all_args self).

(** The message of the error that [set_allargs] raises. *)
Definition shape_error : exn :=
  TypeError "与える引数はタプルでまとめてください".

(** Two small states for instances of the properties. *)
Definition registry_1 : ProcessDivisionier := mkPD square [VTuple [VInt 1]] 1.

Definition world_2_3 : World :=
  mkWorld (mkPD square [VTuple [VInt 2]; VTuple [VInt 3]] 2) [].

(** The futures that the submission of a registry of tuples creates. *)
Definition futures_of (fn : FUNC) (registry : list value) : list Future :=
  flat_map (fun args => match unpack args with
                        | Return items => [fn items]
                        | Raise _ => []
                        end) registry.

(** The events of that submission. *)
Definition submissions (registry : list value) : list event :=
  flat_map (fun args => match unpack args with
                        | Return items => [Submitted items]
                        | Raise _ => []
                        end) registry.

(** The futures in the order in which they complete. *)
Definition completed (fs : list Future) (sched : list nat) : list Future :=
  flat_map (fun i => match nth_error fs i with
                     | Some future => [future]
                     | None => []
                     end) sched.

(** The values of the futures that hold one. *)
Definition successes (fs : list Future) : list value :=
  flat_map (fun future => match future with
                          | Return r => [r]
                          | Raise _ => []
                          end) fs.

(** The events of the callbacks of completed futures. *)
Definition callback_events (fs : list Future) : list event :=
  flat_map (fun future => match future with
                          | Return _ => [PbarUpdate 1]
                          | Raise e => [PbarUpdate 1; CallbackFailed e]
                          end) fs.

(** The exceptions of the futures that hold one. *)
Definition failures (fs : list Future) : list exn :=
  flat_map (fun future => match future with
                          | Return _ => []
                          | Raise e => [e]
                          end) fs.

(** The exceptions that callbacks raised and that were logged and dropped. *)
Fixpoint logged (tr : list event) : list exn :=
  match tr with
  | [] => []
  | CallbackFailed e :: tr' => e :: logged tr'
  | _ :: tr' => logged tr'
  end.

(** One call of [add_args] per argument tuple. *)
Definition add_each (tuples : list (list value)) (self : ProcessDivisionier)
  : ProcessDivisionier :=
  fold_left (fun s args => snd (add_args args s)) tuples self.

(** A call of a public method by the owner of the object. *)
Inductive call : Type :=
| CallShowArgs
| CallAddArgs (args : list value)
| CallSetAllargs (all_args : list value) (mode : string)
| CallSetProcesses (num_of_process : Z)
| CallRun (sched : list nat) (workers : option Z)
          (all_args : option (list value)).

(** What a call leaves behind, whether it returns or raises. *)
Definition perform (c : call) (w : World) : World :=
  match c with
  | CallShowArgs => snd (on_self show_args w)
  | CallAddArgs args => snd (on_self (add_args args) w)
  | CallSetAllargs all_args mode => snd (on_self (set_allargs all_args mode) w)
  | CallSetProcesses n => snd (on_self (set_processes n) w)
  | CallRun sched workers all_args => snd (run sched workers all_args w)
  end.

(** The object after construction and a sequence of calls; the caller
    catches what a call raises and goes on. *)
Definition session (func : FUNC) (calls : list call) : World :=
  fold_left (fun w c => perform c w) calls (mkWorld (init func) []).

(** * Properties of the argument registry *)

Section Registry.
Variable self : ProcessDivisionier.

Lemma existsb_non_tuple (all_args : list value) :
  existsb (fun args => negb (isinstance_tuple args)) all_args = true <->
  exists args, In args all_args /\ isinstance_tuple args = false.
Proof.
  rewrite existsb_exists.
  split; intros (args & Hin & Hty); exists args; split; trivial.
  - now apply negb_true_iff.
  - now apply negb_true_iff.
Qed.

Lemma existsb_all_tuples (all_args : list value) :
  Forall (fun args => isinstance_tuple args = true) all_args ->
  existsb (fun args => negb (isinstance_tuple args)) all_args = false.
Proof.
  induction 1 as [| args rest Hargs _ IH]; simpl.
  - reflexivity.
  - now rewrite Hargs, IH.
Qed.

(** What [set_allargs] does when every element is a tuple. *)
Lemma set_allargs_accepts (all_args : list value) (mode : string) :
  Forall (fun args => isinstance_tuple args = true) all_args ->
  set_allargs all_args mode self =
  (Return tt,
   let kept := if String.eqb mode "w" then [] else __all_args self in
   mkPD (__f self) (kept ++ all_args) (len (kept ++ all_args))).
Proof.
  intros Hall. unfold set_allargs, bind.
  destruct (String.eqb mode "w"); simpl;
    rewrite (existsb_all_tuples Hall); reflexivity.
Qed.

(** What [set_allargs] does when some element is not a tuple: the error
    is raised after the clearing of the overwrite mode. *)
Lemma set_allargs_rejects (all_args : list value) (mode : string) :
  (exists args, In args all_args /\ isinstance_tuple args = false) ->
  set_allargs all_args mode self =
  (Raise shape_error,
   if String.eqb mode "w" then with_all_args [] self else self).
Proof.
  intros Hbad. apply existsb_non_tuple in Hbad.
  unfold set_allargs, bind.
  destruct (String.eqb mode "w"); simpl; rewrite Hbad; reflexivity.
Qed.

(** A successful [set_allargs] was given tuples only. *)
Lemma set_allargs_returns_inv (all_args : list value) (mode : string)
    (self' : ProcessDivisionier) :
  set_allargs all_args mode self = (Return tt, self') ->
  existsb (fun args => negb (isinstance_tuple args)) all_args = false.
Proof.
  unfold set_allargs, bind.
  destruct (existsb _ all_args); trivial.
  destruct (String.eqb mode "w"); simpl; discriminate.
Qed.

(** C10: in append mode, [set_allargs] with an element that is not a tuple
    raises the [TypeError] and leaves the object, registry and cached unit
    count, as it was. *)
Theorem set_allargs_append_rejects_unchanged (all_args : list value) :
  (exists args, In args all_args /\ isinstance_tuple args = false) ->
  set_allargs all_args "a" self = (Raise shape_error, self) /\
  exn_class shape_error = "TypeError".
Proof.
  intros Hbad. split.
  - now rewrite (set_allargs_rejects all_args "a" Hbad).
  - reflexivity.
Qed.

(** C4: after [set_allargs(tuples, 'w')], [show_args()] is [tuples] in the
    given order; after [set_allargs(tuples, 'a')] it is the prior contents
    followed by [tuples]. *)
Theorem set_allargs_then_show_args (tuples : list value) :
  Forall (fun args => isinstance_tuple args = true) tuples ->
  fst ((set_allargs tuples "w" ;; show_args) self) = Return tuples /\
  fst ((set_allargs tuples "a" ;; show_args) self) =
    Return (__all_args self ++ tuples).
Proof.
  intros Hall. unfold bind.
  rewrite !(set_allargs_accepts _ Hall). split; reflexivity.
Qed.

(** C5: [set_processes(n)] with [n >= 0] replaces the registry, whatever it
    held, by [n] empty tuples and sets the cached unit count to [n]. *)
Theorem set_processes_n_empty_tuples (n : Z) :
  0 <= n ->
  fst (set_processes n self) = Return tt /\
  __all_args (snd (set_processes n self)) = repeat (VTuple []) (Z.to_nat n) /\
  len (__all_args (snd (set_processes n self))) = n /\
  __num_of_process (snd (set_processes n self)) = n.
Proof.
  intros Hn. unfold set_processes, bind, modify, len. simpl.
  rewrite repeat_length, Z2Nat.id by exact Hn. repeat split.
Qed.

(** C9: after [add_args], after a [set_allargs] that returns, and after
    [set_processes(n)] with [n >= 0], the cached unit count is the length
    of the argument list. *)
Theorem num_of_process_is_length (args all_args : list value)
    (mode : string) (self' : ProcessDivisionier) (n : Z) :
  set_allargs all_args mode self = (Return tt, self') ->
  0 <= n ->
  count_cached (snd (add_args args self)) /\
  count_cached self' /\
  count_cached (snd (set_processes n self)).
Proof.
  intros Hset Hn. unfold count_cached. repeat split.
  - pose proof (set_allargs_returns_inv _ _ Hset) as Hok.
    revert Hset. unfold set_allargs, bind. rewrite Hok.
    destruct (String.eqb mode "w"); simpl; intros [= <-]; reflexivity.
  - destruct (set_processes_n_empty_tuples Hn) as (_ & _ & Hlen & Hnum).
    now rewrite Hlen, Hnum.
Qed.

(** The registry holds tuples only: so it is at construction, and every
    method keeps it so. *)
Lemma registry_ok_init (func : FUNC) : registry_ok (init func).
Proof.
  constructor.
Qed.

Lemma registry_ok_add_args (args : list value) :
  registry_ok self -> registry_ok (snd (add_args args self)).
Proof.
  unfold registry_ok. simpl. intros Hreg.
  apply Forall_app. split; [exact Hreg | now constructor].
Qed.

Lemma registry_ok_set_allargs (all_args : list value) (mode : string) :
  registry_ok self -> registry_ok (snd (set_allargs all_args mode self)).
Proof.
  unfold registry_ok. intros Hreg.
  destruct (existsb (fun args => negb (isinstance_tuple args)) all_args)
    eqn:Hcheck.
  - apply existsb_non_tuple in Hcheck.
    rewrite (set_allargs_rejects all_args mode Hcheck).
    destruct (String.eqb mode "w"); simpl; [constructor | exact Hreg].
  - assert (Hall : Forall (fun args => isinstance_tuple args = true) all_args).
    { apply Forall_forall. intros args Hin.
      destruct (isinstance_tuple args) eqn:Hty; trivial.
      assert (Hbad : exists a, In a all_args /\ isinstance_tuple a = false)
        by (exists args; now split).
      apply existsb_non_tuple in Hbad. congruence. }
    rewrite (set_allargs_accepts mode Hall). simpl.
    apply Forall_app. split; [| exact Hall].
    destruct (String.eqb mode "w"); [constructor | exact Hreg].
Qed.

Lemma registry_ok_set_processes (n : Z) :
  registry_ok (snd (set_processes n self)).
Proof.
  unfold registry_ok. simpl. apply Forall_forall.
  intros args Hin. apply repeat_spec in Hin. now subst.
Qed.
End Registry.

(** C2 (overwrite mode): with the registry [[(1,)]] and the flat list [[5]],
    [set_allargs] raises the [TypeError] after it has cleared the registry,
    and the cached unit count is still 1. *)
Theorem set_allargs_overwrite_rejects_cleared :
  let self := registry_1 in
  fst (set_allargs [VInt 5] "w" self) = Raise shape_error /\
  __all_args (snd (set_allargs [VInt 5] "w" self)) = [] /\
  __num_of_process (snd (set_allargs [VInt 5] "w" self)) = 1 /\
  snd (set_allargs [VInt 5] "w" self) <> self.
Proof.
  cbv zeta. repeat split. discriminate.
Qed.

(** * Properties of the dispatcher *)

Section Dispatcher.

Lemma advances_app (tr1 tr2 : list event) :
  advances (tr1 ++ tr2) = (advances tr1 + advances tr2)%nat.
Proof.
  induction tr1 as [| ev tr1 IH]; simpl; trivial.
  destruct ev as [ | | | n | | ]; trivial.
  destruct n as [| [p | p |] |]; trivial.
  simpl. now rewrite IH.
Qed.

Lemma submitted_app (tr1 tr2 : list event) :
  submitted (tr1 ++ tr2) = submitted tr1 ++ submitted tr2.
Proof.
  induction tr1 as [| ev tr1 IH]; simpl; trivial.
  destruct ev; simpl; now rewrite IH.
Qed.

Lemma advances_submissions (registry : list value) :
  advances (submissions registry) = O.
Proof.
  induction registry as [| args registry IH]; simpl; trivial.
  rewrite advances_app, IH. now destruct (unpack args).
Qed.

Lemma advances_callback_events (fs : list Future) :
  advances (callback_events fs) = List.length fs.
Proof.
  induction fs as [| future fs IH]; simpl; trivial.
  destruct future; simpl; now rewrite IH.
Qed.

Lemma submitted_callback_events (fs : list Future) :
  submitted (callback_events fs) = [].
Proof.
  induction fs as [| future fs IH]; simpl; trivial.
  now destruct future.
Qed.

(** On a registry of tuples the submission goes through: one unit per
    tuple, in registry order. *)
Lemma submitted_submissions (registry : list value) :
  Forall (fun args => isinstance_tuple args = true) registry ->
  submitted (submissions registry) = registry.
Proof.
  induction 1 as [| args registry Hargs _ IH]; simpl; trivial.
  destruct args; try discriminate. simpl. now rewrite IH.
Qed.

Lemma futures_of_length (fn : FUNC) (registry : list value) :
  Forall (fun args => isinstance_tuple args = true) registry ->
  List.length (futures_of fn registry) = List.length registry.
Proof.
  induction 1 as [| args registry Hargs _ IH]; simpl; trivial.
  destruct args; try discriminate. simpl. now rewrite IH.
Qed.

Lemma for_each_submit (fn : FUNC) (registry : list value) (w : World) :
  Forall (fun args => isinstance_tuple args = true) registry ->
  for_each (submit fn) registry w =
  (Return (futures_of fn registry),
   mkWorld (obj w) (trace w ++ submissions registry)).
Proof.
  intros Hall. revert w.
  induction Hall as [| args registry Hargs _ IH]; intros w; simpl.
  - unfold ret. rewrite app_nil_r. now destruct w.
  - destruct args; try discriminate.
    unfold bind at 1. unfold submit, bind at 1. simpl.
    unfold bind at 1. rewrite IH. simpl.
    unfold ret. now rewrite <- app_assoc.
Qed.

(** The callbacks never raise into [run]: each completed future advances
    the progress bar, and only those that hold a value add to [results]. *)
Lemma complete_spec (fs : list Future) (sched : list nat)
    (results : list value) (w : World) :
  complete fs sched results w =
  (Return (results ++ successes (completed fs sched)),
   mkWorld (obj w) (trace w ++ callback_events (completed fs sched))).
Proof.
  revert results w.
  induction sched as [| i sched IH]; intros results w; simpl.
  - unfold ret. rewrite !app_nil_r. now destruct w.
  - destruct (nth_error fs i) as [[r | e] |]; simpl.
    + unfold bind. simpl. rewrite IH. simpl.
      now rewrite <- !app_assoc.
    + unfold bind. simpl. rewrite IH. simpl.
      now rewrite <- !app_assoc.
    + apply IH.
Qed.

Lemma completed_seq (pre fs : list Future) :
  completed (pre ++ fs) (seq (List.length pre) (List.length fs)) = fs.
Proof.
  revert pre.
  induction fs as [| future fs IH]; intros pre; simpl; trivial.
  rewrite nth_error_app2, Nat.sub_diag by apply Nat.le_refl. simpl.
  f_equal.
  specialize (IH (pre ++ [future])).
  rewrite <- app_assoc, length_app, Nat.add_comm in IH.
  exact IH.
Qed.

(** When every future completes once, the completed futures are the
    submitted ones, in some order. *)
Lemma completed_all (fs : list Future) (sched : list nat) :
  completion_order (List.length fs) sched ->
  Permutation (completed fs sched) fs.
Proof.
  intros Hsched.
  rewrite <- (completed_seq [] fs) at 2.
  now apply Permutation_flat_map.
Qed.

Lemma successes_all (fs : list Future) :
  Forall (fun future => exists r, future = Return r) fs ->
  List.length (successes fs) = List.length fs.
Proof.
  induction 1 as [| future fs (r & ->) _ IH]; simpl; trivial.
  now rewrite IH.
Qed.

Lemma map_Return_successes (fs : list Future) :
  Forall (fun future => exists r, future = Return r) fs ->
  map Return (successes fs) = fs.
Proof.
  induction 1 as [| future fs (r & ->) _ IH]; simpl; trivial.
  now rewrite IH.
Qed.

Lemma futures_of_succeed (fn : FUNC) (registry : list value) :
  (forall items, In (VTuple items) registry -> exists r, fn items = Return r) ->
  Forall (fun args => isinstance_tuple args = true) registry ->
  Forall (fun future => exists r, future = Return r) (futures_of fn registry).
Proof.
  intros Hfn Hall.
  induction Hall as [| args registry Hargs _ IH]; simpl.
  - constructor.
  - destruct args; try discriminate. simpl. constructor.
    + apply Hfn. now left.
    + apply IH. intros its Hin. apply Hfn. now right.
Qed.

Lemma ProcessPoolExecutor_valid (workers : option Z) (w : World) :
  valid_workers workers = true ->
  ProcessPoolExecutor workers w =
  (Return tt, mkWorld (obj w) (trace w ++ [PoolCreated workers])).
Proof.
  destruct workers as [n |]; simpl; trivial.
  intros Hn. apply negb_true_iff in Hn. now rewrite Hn.
Qed.

Lemma ProcessPoolExecutor_invalid (workers : option Z) (w : World) :
  valid_workers workers = false ->
  ProcessPoolExecutor workers w =
  (Raise (ValueError "max_workers must be greater than 0"), w).
Proof.
  destruct workers as [n |]; simpl; try discriminate.
  intros Hn. apply negb_false_iff in Hn. now rewrite Hn.
Qed.

(** The events of a run over a registry of tuples. *)
Lemma run_spec (sched : list nat) (workers : option Z) (w : World) :
  valid_workers workers = true ->
  registry_ok (obj w) ->
  let fs := futures_of (__f (obj w)) (__all_args (obj w)) in
  run sched workers None w =
  (Return (successes (completed fs sched)),
   mkWorld (obj w)
     (trace w ++
      PoolCreated workers :: submissions (__all_args (obj w)) ++
      PbarCreated (Z.of_nat (List.length fs)) ::
      callback_events (completed fs sched) ++ [PoolShutdown])).
Proof.
  intros Hworkers Hreg fs.
  unfold run, with_pool. unfold bind at 1. unfold ret at 1.
  unfold bind at 1. rewrite ProcessPoolExecutor_valid by exact Hworkers.
  unfold bind at 1. unfold gets at 1. unfold bind at 1. unfold gets at 1.
  unfold bind at 1. cbn [obj trace].
  rewrite for_each_submit by exact Hreg.
  unfold bind at 1. unfold emit at 1. unfold modify. cbn [obj trace].
  rewrite complete_spec. cbn [obj trace app]. fold fs.
  f_equal. f_equal.
  rewrite <- !app_assoc. reflexivity.
Qed.

Lemma submit_obj (fn : FUNC) (args : value) (w : World) :
  obj (snd (submit fn args w)) = obj w.
Proof.
  unfold submit, bind. now destruct (unpack args).
Qed.

Lemma for_each_submit_obj (fn : FUNC) (registry : list value) (w : World) :
  obj (snd (for_each (submit fn) registry w)) = obj w.
Proof.
  revert w.
  induction registry as [| args registry IH]; intros w; simpl; trivial.
  pose proof (submit_obj fn args w) as Hsubmit.
  unfold bind at 1.
  destruct (submit fn args w) as [[future | e] w1]; simpl in *; trivial.
  specialize (IH w1). unfold bind at 1.
  destruct (for_each (submit fn) registry w1) as [[fs | e] w2]; simpl in *;
    congruence.
Qed.

Lemma nth_error_futures_of (fn : FUNC) (registry : list value) :
  Forall (fun args => isinstance_tuple args = true) registry ->
  forall i items,
    nth_error registry i = Some (VTuple items) ->
    nth_error (futures_of fn registry) i = Some (fn items).
Proof.
  induction 1 as [| args registry Hargs _ IH]; intros i items Hi.
  - now destruct i.
  - destruct args; try discriminate. destruct i as [| i]; simpl in *.
    + now injection Hi as ->.
    + now apply IH.
Qed.

Lemma successes_completed_nth (fs : list Future) (order : list nat) :
  (forall j, In j order -> exists r, nth_error fs j = Some (Return r)) ->
  forall k i r,
    nth_error order k = Some i ->
    nth_error fs i = Some (Return r) ->
    nth_error (successes (completed fs order)) k = Some r.
Proof.
  induction order as [| j order IH]; intros Hall k i r Hk Hi.
  - now destruct k.
  - destruct (Hall j (or_introl eq_refl)) as (rj & Hj).
    simpl. rewrite Hj. simpl.
    destruct k as [| k]; simpl in *.
    + injection Hk as ->. congruence.
    + apply (IH (fun j' Hin => Hall j' (or_intror Hin)) k i r Hk Hi).
Qed.
End Dispatcher.

(** * The contract of [run] *)

Section Run.
Variable sched : list nat.
Variable workers : option Z.

(** [run] without an override leaves the object alone, whether it returns
    or raises. *)
Lemma run_obj (w : World) : obj (snd (run sched workers None w)) = obj w.
Proof.
  unfold run, with_pool. unfold bind at 1. unfold ret at 1.
  unfold bind at 1.
  destruct (valid_workers workers) eqn:Hworkers.
  - rewrite ProcessPoolExecutor_valid by exact Hworkers.
    unfold bind at 1. unfold gets at 1. unfold bind at 1. unfold gets at 1.
    cbn [obj trace]. unfold bind at 1.
    pose proof (for_each_submit_obj (__f (obj w)) (__all_args (obj w))
                  (mkWorld (obj w) (trace w ++ [PoolCreated workers])))
      as Hsubmit.
    destruct (for_each _ _ _) as [[fs | e] w1]; simpl in Hsubmit |- *.
    + unfold bind at 1. unfold emit, modify. rewrite complete_spec.
      exact Hsubmit.
    + exact Hsubmit.
  - rewrite ProcessPoolExecutor_invalid by exact Hworkers. reflexivity.
Qed.

(** C7: [run] with [all_args=None] leaves the registry contents and the
    cached unit count as they were. *)
Theorem run_none_keeps_registry (w : World) :
  __all_args (obj (snd (run sched workers None w))) = __all_args (obj w) /\
  __num_of_process (obj (snd (run sched workers None w))) =
    __num_of_process (obj w).
Proof.
  now rewrite run_obj.
Qed.

(** C3: on a registry of [n] tuples, [n = 0] included, with a worker
    function that always succeeds, [run()] returns a list of [n] results
    and the progress bar is advanced by one [n] times.  The [n] results are
    those of the [n] units: the list is a rearrangement of what the worker
    function returns on the registered tuples, and its [k]-th element is
    what the worker function returns on the tuple of the unit that
    completes [k]-th. *)
Theorem run_returns_n_results (w : World) :
  valid_workers workers = true ->
  registry_ok (obj w) ->
  always_succeeds (obj w) ->
  completion_order (List.length (__all_args (obj w))) sched ->
  exists results evs,
    run sched workers None w =
      (Return results, mkWorld (obj w) (trace w ++ evs)) /\
    List.length results = List.length (__all_args (obj w)) /\
    advances evs = List.length (__all_args (obj w)) /\
    Permutation results
      (successes (futures_of (__f (obj w)) (__all_args (obj w)))) /\
    Permutation (map Return results)
      (futures_of (__f (obj w)) (__all_args (obj w))) /\
    (forall k i items,
        nth_error sched k = Some i ->
        nth_error (__all_args (obj w)) i = Some (VTuple items) ->
        exists r, __f (obj w) items = Return r /\
                  nth_error results k = Some r).
Proof.
  intros Hworkers Hreg Hfn Hsched.
  rewrite (@run_spec sched workers w Hworkers Hreg).
  set (fs := futures_of (__f (obj w)) (__all_args (obj w))).
  assert (Hlen : List.length fs = List.length (__all_args (obj w)))
    by now apply futures_of_length.
  assert (Hperm : Permutation (completed fs sched) fs)
    by (apply completed_all; now rewrite Hlen).
  assert (Hvals : Permutation (successes (completed fs sched))
                              (successes fs))
    by (unfold successes; now apply Permutation_flat_map).
  assert (Hok : Forall (fun future => exists r, future = Return r) fs)
    by now apply futures_of_succeed.
  do 2 eexists. split; [reflexivity |]. repeat split.
  - rewrite (Permutation_length Hvals), successes_all; trivial.
  - cbn [advances]. rewrite advances_app, advances_submissions.
    cbn [advances Nat.add]. rewrite advances_app, advances_callback_events.
    rewrite (Permutation_length Hperm), Hlen. simpl. apply Nat.add_0_r.
  - exact Hvals.
  - rewrite (Permutation_map Return Hvals).
    now rewrite (map_Return_successes Hok).
  - intros k i items Hk Hi.
    destruct (Hfn items (nth_error_In _ _ Hi)) as (r & Hr).
    exists r. split; trivial.
    apply successes_completed_nth with (i := i); trivial.
    + intros j Hj.
      apply (Permutation_in _ Hsched), in_seq in Hj.
      rewrite <- Hlen in Hj.
      destruct (nth_error fs j) as [future |] eqn:Hfuture.
      * rewrite Forall_forall in Hok.
        destruct (Hok future (nth_error_In _ _ Hfuture)) as (rj & ->).
        now exists rj.
      * apply nth_error_None in Hfuture. lia.
    + unfold fs. rewrite (nth_error_futures_of (__f (obj w)) Hreg i Hi).
      now rewrite Hr.
Qed.

(** C6: [run(all_args=T)] on tuples [T] is [set_allargs(T)] in overwrite
    mode, which emits nothing, followed by the run proper on the replaced
    registry: the units submitted are those of [T], and [T] is the
    registry afterwards. *)
Theorem run_override_replaces_first (T : list value) (w : World) :
  Forall (fun args => isinstance_tuple args = true) T ->
  let w' := mkWorld (mkPD (__f (obj w)) T (len T)) (trace w) in
  on_self (set_allargs T "w") w = (Return tt, w') /\
  run sched workers (Some T) w = run sched workers None w' /\
  submitted (trace (snd (run sched workers (Some T) w))) =
    submitted (trace w) ++ (if valid_workers workers then T else []) /\
  __all_args (obj (snd (run sched workers (Some T) w))) = T.
Proof.
  intros HT w'.
  assert (Hset : on_self (set_allargs T "w") w = (Return tt, w')).
  { unfold on_self. now rewrite (set_allargs_accepts (obj w) "w" HT). }
  assert (Hrun : run sched workers (Some T) w = run sched workers None w').
  { unfold run. unfold bind at 1. rewrite Hset. reflexivity. }
  repeat split; trivial.
  - rewrite Hrun. destruct (valid_workers workers) eqn:Hworkers.
    + rewrite (@run_spec sched workers w' Hworkers) by exact HT.
      cbn [snd trace obj __all_args __f].
      rewrite submitted_app. f_equal. cbn [submitted].
      unfold w'. cbn [obj __all_args __f].
      rewrite submitted_app, (submitted_submissions HT). cbn [submitted].
      now rewrite submitted_app, submitted_callback_events, app_nil_r.
    + unfold run, with_pool. unfold bind at 1. unfold ret at 1.
      unfold bind at 1.
      rewrite ProcessPoolExecutor_invalid by exact Hworkers.
      now rewrite app_nil_r.
  - now rewrite Hrun, run_obj.
Qed.
End Run.

(** C8: with [square] and the registry [[(1,), (2,), (3,), (4,)]],
    [run(workers=2)] returns 1, 4, 9 and 16 in the order of completion, and
    the progress bar is advanced by one four times. *)
Theorem run_square_one_to_four (sched : list nat) (num : Z) :
  completion_order 4 sched ->
  exists results evs,
    run sched (Some 2) None (mkWorld (mkPD square one_to_four num) []) =
      (Return results, mkWorld (mkPD square one_to_four num) evs) /\
    Permutation results [VInt 1; VInt 4; VInt 9; VInt 16] /\
    advances evs = 4%nat.
Proof.
  intros Hsched.
  set (w := mkWorld (mkPD square one_to_four num) []).
  assert (Hreg : registry_ok (obj w)) by (repeat constructor).
  rewrite (@run_spec sched (Some 2) w eq_refl Hreg).
  set (fs := futures_of (__f (obj w)) (__all_args (obj w))).
  assert (Hperm : Permutation (completed fs sched) fs)
    by now apply completed_all.
  do 2 eexists. split; [reflexivity | split].
  - exact (Permutation_flat_map _ Hperm).
  - change (trace w) with (@nil event). cbn [app advances].
    rewrite advances_app, advances_submissions.
    cbn [advances Nat.add]. rewrite advances_app, advances_callback_events.
    now rewrite (Permutation_length Hperm).
Qed.

(** An [Exception] raised inside a unit of work never leaves [run]: the
    callback raises it, the future that called the callback logs and drops
    it. *)
Lemma run_returns_despite_failures (sched : list nat) (workers : option Z)
    (w : World) :
  valid_workers workers = true ->
  registry_ok (obj w) ->
  exists results, fst (run sched workers None w) = Return results.
Proof.
  intros Hworkers Hreg. rewrite (@run_spec sched workers w Hworkers Hreg).
  eexists. reflexivity.
Qed.

(** C1: with a worker function that raises [ValueError] on 3 and the
    registry [[(1,), (2,), (3,), (4,)]], [run()] returns the list of the
    three other results; the [ValueError] only reaches the log of the
    callback. *)
Theorem run_returns_partial_results :
  let w := mkWorld (mkPD square_not_3 one_to_four 4) [] in
  square_not_3 [VInt 3] = Raise (ValueError "x == 3") /\
  fst (run [0; 1; 2; 3]%nat None None w) =
    Return [VInt 1; VInt 4; VInt 16] /\
  In (CallbackFailed (ValueError "x == 3"))
     (trace (snd (run [0; 1; 2; 3]%nat None None w))).
Proof.
  cbv zeta. repeat split. vm_compute. tauto.
Qed.

(** * The properties at concrete inputs *)

Lemma set_allargs_append_rejects_unchanged_witness :
  (exists args, In args [VInt 5] /\ isinstance_tuple args = false) /\
  set_allargs [VInt 5] "a" registry_1 = (Raise shape_error, registry_1) /\
  exn_class shape_error = "TypeError".
Proof.
  assert (Hbad : exists args, In args [VInt 5] /\ isinstance_tuple args = false).
  { exists (VInt 5). split; [now left | reflexivity]. }
  split; [exact Hbad |].
  exact (set_allargs_append_rejects_unchanged registry_1 [VInt 5] Hbad).
Defined.

Lemma set_allargs_then_show_args_witness :
  fst ((set_allargs [VTuple [VInt 7]; VTuple []] "w" ;; show_args) registry_1) =
    Return [VTuple [VInt 7]; VTuple []] /\
  fst ((set_allargs [VTuple [VInt 7]; VTuple []] "a" ;; show_args) registry_1) =
    Return [VTuple [VInt 1]; VTuple [VInt 7]; VTuple []].
Proof.
  apply (set_allargs_then_show_args registry_1).
  repeat constructor.
Defined.

Lemma set_processes_n_empty_tuples_witness :
  0 <= 5 /\
  __all_args (snd (set_processes 5 registry_1)) =
    [VTuple []; VTuple []; VTuple []; VTuple []; VTuple []] /\
  __num_of_process (snd (set_processes 5 registry_1)) = 5.
Proof.
  assert (H5 : 0 <= 5) by (intro Hcmp; discriminate Hcmp).
  destruct (set_processes_n_empty_tuples registry_1 H5)
    as (_ & Hargs & _ & Hnum).
  split; [exact H5 | split; [exact Hargs | exact Hnum]].
Defined.

Lemma num_of_process_is_length_witness :
  count_cached (snd (add_args [VInt 2] registry_1)) /\
  count_cached (mkPD square [VTuple [VInt 1]; VTuple [VInt 7]] 2) /\
  count_cached (snd (set_processes 3 registry_1)).
Proof.
  apply (@num_of_process_is_length registry_1 [VInt 2] [VTuple [VInt 7]] "a"
           (mkPD square [VTuple [VInt 1]; VTuple [VInt 7]] 2) 3).
  - reflexivity.
  - intro Hcmp; discriminate Hcmp.
Defined.

Lemma run_returns_n_results_witness :
  exists results evs,
    run [1; 0]%nat None None world_2_3 =
      (Return results, mkWorld (obj world_2_3) (trace world_2_3 ++ evs)) /\
    List.length results = 2%nat /\
    advances evs = 2%nat /\
    Permutation results [VInt 4; VInt 9] /\
    Permutation (map Return results) [Return (VInt 4); Return (VInt 9)] /\
    (forall k i items,
        nth_error [1; 0]%nat k = Some i ->
        nth_error [VTuple [VInt 2]; VTuple [VInt 3]] i = Some (VTuple items) ->
        exists r, square items = Return r /\ nth_error results k = Some r).
Proof.
  apply (@run_returns_n_results [1; 0]%nat None world_2_3).
  - reflexivity.
  - repeat constructor.
  - intros items [Hin | [Hin | []]]; injection Hin as <-;
      eexists; reflexivity.
  - apply perm_swap.
Defined.

Lemma run_override_replaces_first_witness :
  run [0]%nat (Some 2) (Some [VTuple [VInt 7]]) world_2_3 =
    run [0]%nat (Some 2) None
        (mkWorld (mkPD square [VTuple [VInt 7]] 1) []) /\
  submitted (trace (snd (run [0]%nat (Some 2) (Some [VTuple [VInt 7]])
                             world_2_3))) = [VTuple [VInt 7]] /\
  __all_args (obj (snd (run [0]%nat (Some 2) (Some [VTuple [VInt 7]])
                            world_2_3))) = [VTuple [VInt 7]].
Proof.
  assert (HT : Forall (fun args => isinstance_tuple args = true)
                      [VTuple [VInt 7]]) by (repeat constructor).
  destruct (run_override_replaces_first [0]%nat (Some 2) world_2_3 HT)
    as (_ & Hrun & Hsub & Hreg).
  split; [exact Hrun | split; [exact Hsub | exact Hreg]].
Defined.

Lemma run_square_one_to_four_witness :
  exists results evs,
    run [2; 0; 3; 1]%nat (Some 2) None
        (mkWorld (mkPD square one_to_four 4) []) =
      (Return results, mkWorld (mkPD square one_to_four 4) evs) /\
    Permutation results [VInt 1; VInt 4; VInt 9; VInt 16] /\
    advances evs = 4%nat.
Proof.
  apply (@run_square_one_to_four [2; 0; 3; 1]%nat 4).
  unfold completion_order. simpl.
  apply perm_trans with (l' := [0; 2; 3; 1]%nat); [apply perm_swap |].
  apply perm_skip.
  apply perm_trans with (l' := [2; 1; 3]%nat);
    [apply perm_skip, perm_swap | apply perm_swap].
Defined.

(** * Further properties of the argument registry *)

Section RegistryMore.
Variable self : ProcessDivisionier.

Lemma add_each_spec (tuples : list (list value)) (s : ProcessDivisionier) :
  tuples <> [] ->
  add_each tuples s =
  mkPD (__f s) (__all_args s ++ map VTuple tuples)
       (len (__all_args s ++ map VTuple tuples)).
Proof.
  revert s. induction tuples as [| args tuples IH]; intros s Hne.
  - now contradiction Hne.
  - unfold add_each. simpl.
    destruct tuples as [| args' tuples].
    + reflexivity.
    + change (fold_left (fun s0 args0 => snd (add_args args0 s0))
                        (args' :: tuples) ?s1)
        with (add_each (args' :: tuples) s1).
      rewrite IH by discriminate.
      unfold with_num_of_process, with_all_args. cbn [__f __all_args].
      now rewrite <- !app_assoc.
Qed.

Lemma map_VTuple_all (tuples : list (list value)) :
  Forall (fun args => isinstance_tuple args = true) (map VTuple tuples).
Proof.
  induction tuples; simpl; now constructor.
Qed.

(** X1: registering tuples one by one with [add_args] leaves the object as
    one [set_allargs] in append mode with the same tuples does. *)
Theorem add_args_each_is_set_allargs_append (tuples : list (list value)) :
  tuples <> [] ->
  add_each tuples self = snd (set_allargs (map VTuple tuples) "a" self).
Proof.
  intros Hne.
  rewrite (add_each_spec self Hne).
  now rewrite (set_allargs_accepts self "a" (map_VTuple_all tuples)).
Qed.

(** X2: [set_allargs] compares the mode with ['w'] only: every other mode,
    known or not, appends. *)
Theorem set_allargs_other_mode_appends (all_args : list value)
    (mode : string) :
  mode <> "w" ->
  set_allargs all_args mode self = set_allargs all_args "a" self.
Proof.
  intros Hmode. apply String.eqb_neq in Hmode.
  unfold set_allargs. now rewrite Hmode.
Qed.

(** X3: two appends of tuples are one append of the concatenation. *)
Theorem set_allargs_append_twice (A B : list value) :
  Forall (fun args => isinstance_tuple args = true) A ->
  Forall (fun args => isinstance_tuple args = true) B ->
  (set_allargs A "a" ;; set_allargs B "a") self =
  set_allargs (A ++ B) "a" self.
Proof.
  intros HA HB. unfold bind.
  rewrite (set_allargs_accepts self "a" HA).
  rewrite (set_allargs_accepts _ "a" HB).
  rewrite (set_allargs_accepts self "a" (proj2 (Forall_app _ A B) (conj HA HB))).
  cbn. now rewrite <- !app_assoc.
Qed.

(** X4: an overwrite with tuples forgets what an earlier [set_allargs], in
    any mode, had registered. *)
Theorem set_allargs_overwrite_forgets (A T : list value) (mode : string) :
  Forall (fun args => isinstance_tuple args = true) A ->
  Forall (fun args => isinstance_tuple args = true) T ->
  (set_allargs A mode ;; set_allargs T "w") self = set_allargs T "w" self /\
  snd (set_allargs T "w" self) = mkPD (__f self) T (len T).
Proof.
  intros HA HT. unfold bind.
  rewrite (set_allargs_accepts self mode HA).
  rewrite !(set_allargs_accepts _ "w" HT). split; reflexivity.
Qed.

(** X5: [set_processes] does not check the sign: with a negative number the
    registry is empty and the cached unit count is that number, not the
    length of the registry. *)
Theorem set_processes_negative (n : Z) :
  n < 0 ->
  fst (set_processes n self) = Return tt /\
  __all_args (snd (set_processes n self)) = [] /\
  __num_of_process (snd (set_processes n self)) = n /\
  ~ count_cached (snd (set_processes n self)).
Proof.
  intros Hn. unfold count_cached. simpl.
  destruct n as [| p | p]; try (exfalso; lia).
  simpl. repeat split. unfold len. simpl. lia.
Qed.

Lemma repeat_snoc (A : Type) (x : A) (k : nat) :
  repeat x k ++ [x] = repeat x (S k).
Proof.
  induction k as [| k IH]; simpl; trivial. now rewrite IH.
Qed.

Lemma add_args_empty_iter (n k : nat) (fn : FUNC) :
  Nat.iter n (fun s => snd (add_args [] s))
           (mkPD fn (repeat (VTuple []) (S k)) (Z.of_nat (S k))) =
  mkPD fn (repeat (VTuple []) (n + S k)) (Z.of_nat (n + S k)).
Proof.
  induction n as [| n IH]; trivial.
  rewrite Nat.iter_succ, IH. unfold add_args, bind, modify. cbn [snd].
  unfold with_num_of_process, with_all_args, len. cbn [__f __all_args].
  rewrite repeat_snoc, repeat_length. reflexivity.
Qed.

(** X6: on an empty registry, [n >= 1] calls of [add_args()] without
    arguments leave the object as [set_processes(n)] does. *)
Theorem add_args_empty_is_set_processes (n : nat) :
  (0 < n)%nat ->
  __all_args self = [] ->
  Nat.iter n (fun s => snd (add_args [] s)) self =
  snd (set_processes (Z.of_nat n) self).
Proof.
  intros Hn Hempty. destruct n as [| n]; [lia |].
  assert (Hfirst : snd (add_args [] self) =
                   mkPD (__f self) (repeat (VTuple []) 1) (Z.of_nat 1)).
  { unfold add_args, bind, modify. cbn [snd].
    unfold with_num_of_process, with_all_args. cbn [__f __all_args].
    now rewrite Hempty. }
  rewrite Nat.iter_succ_r, Hfirst, (add_args_empty_iter n 0 (__f self)).
  unfold set_processes, bind, modify. cbn [snd].
  unfold with_num_of_process, with_all_args. cbn [__f __all_args __num_of_process].
  rewrite Nat2Z.id. now rewrite Nat.add_1_r.
Qed.
End RegistryMore.

(** * Further properties of the dispatcher *)

Section RunMore.
Variable sched : list nat.
Variable workers : option Z.

(** The submission loop on any registry: its outcome and its events depend
    on the worker function and the registry only, and the object is left
    alone. *)
Lemma for_each_submit_any (fn : FUNC) (registry : list value) :
  exists r evs, forall w,
    for_each (submit fn) registry w =
    (r, mkWorld (obj w) (trace w ++ evs)).
Proof.
  induction registry as [| args registry (r & evs & IH)].
  - exists (Return []), []. intros [o tr]. simpl. unfold ret.
    now rewrite app_nil_r.
  - destruct (unpack args) as [items | e] eqn:Hargs.
    + exists (match r with
              | Return fs => Return (fn items :: fs)
              | Raise e => Raise e
              end), (Submitted items :: evs).
      intros w. simpl. unfold bind at 1. unfold submit, bind at 1.
      rewrite Hargs. simpl. unfold bind at 1. rewrite IH. simpl.
      rewrite <- app_assoc. simpl. now destruct r.
    + exists (Raise e), []. intros [o tr]. simpl.
      unfold bind at 1. unfold submit, bind at 1. rewrite Hargs. simpl.
      now rewrite app_nil_r.
Qed.

Lemma run_none_unfold (w : World) :
  run sched workers None w =
  with_pool workers (
    fn <- gets (fun w => __f (obj w)) ;;
    registry <- gets (fun w => __all_args (obj w)) ;;
    fs <- for_each (submit fn) registry ;;
    emit (PbarCreated (Z.of_nat (List.length fs))) ;;
    complete fs sched []) w.
Proof.
  reflexivity.
Qed.

(** [run] with an override is [set_allargs] in overwrite mode and, when that
    returns, the run proper. *)
Lemma run_override_unfold (T : list value) (w : World) :
  run sched workers (Some T) w =
  match set_allargs T "w" (obj w) with
  | (Return _, self') => run sched workers None (mkWorld self' (trace w))
  | (Raise e, self') => (Raise e, mkWorld self' (trace w))
  end.
Proof.
  unfold run. unfold bind at 1. unfold on_self.
  destruct (set_allargs T "w" (obj w)) as [[[] | e] self']; reflexivity.
Qed.

(** A run on an accepted pool size, on any registry. *)
Lemma run_any (fn : FUNC) (registry : list value) :
  valid_workers workers = true ->
  exists r mid, forall w,
    __f (obj w) = fn -> __all_args (obj w) = registry ->
    run sched workers None w =
    (r, mkWorld (obj w)
          (trace w ++ PoolCreated workers :: mid ++ [PoolShutdown])).
Proof.
  intros Hworkers.
  destruct (for_each_submit_any fn registry) as ([fs | e] & evs & Hsubmit).
  - exists (Return (successes (completed fs sched))),
           (evs ++ PbarCreated (Z.of_nat (List.length fs)) ::
            callback_events (completed fs sched)).
    intros w <- <-. rewrite run_none_unfold. unfold with_pool.
    unfold bind at 1. rewrite ProcessPoolExecutor_valid by exact Hworkers.
    unfold bind at 1. unfold gets at 1. unfold bind at 1. unfold gets at 1.
    unfold bind at 1. cbn [obj trace]. rewrite Hsubmit.
    unfold bind at 1. unfold emit at 1. unfold modify. cbn [obj trace].
    rewrite complete_spec. cbn [obj trace app].
    f_equal. f_equal. rewrite <- ?app_assoc. simpl.
    now rewrite <- ?app_assoc.
  - exists (Raise e), evs.
    intros w <- <-. rewrite run_none_unfold. unfold with_pool.
    unfold bind at 1. rewrite ProcessPoolExecutor_valid by exact Hworkers.
    unfold bind at 1. unfold gets at 1. unfold bind at 1. unfold gets at 1.
    unfold bind at 1. cbn [obj trace]. rewrite Hsubmit. cbn [obj trace].
    f_equal. f_equal. rewrite <- ?app_assoc. simpl.
    now rewrite <- ?app_assoc.
Qed.

Lemma run_refused (w : World) :
  valid_workers workers = false ->
  run sched workers None w =
  (Raise (ValueError "max_workers must be greater than 0"), w).
Proof.
  intros Hworkers. rewrite run_none_unfold. unfold with_pool.
  unfold bind at 1. now rewrite ProcessPoolExecutor_invalid.
Qed.

(** The outcome and the events of a run do not depend on the world it
    starts in, beyond the worker function and the registry. *)
Lemma run_none_any (fn : FUNC) (registry : list value) :
  exists r evs, forall w,
    __f (obj w) = fn -> __all_args (obj w) = registry ->
    run sched workers None w = (r, mkWorld (obj w) (trace w ++ evs)).
Proof.
  destruct (valid_workers workers) eqn:Hworkers.
  - destruct (run_any fn registry Hworkers) as (r & mid & Hrun).
    exists r, (PoolCreated workers :: mid ++ [PoolShutdown]). exact Hrun.
  - exists (Raise (ValueError "max_workers must be greater than 0")), [].
    intros [o tr] _ _. rewrite run_refused by exact Hworkers.
    now rewrite app_nil_r.
Qed.

Lemma run_override_obj (T : list value) (w : World) :
  obj (snd (run sched workers (Some T) w)) = snd (set_allargs T "w" (obj w)).
Proof.
  rewrite run_override_unfold.
  destruct (set_allargs T "w" (obj w)) as [[[] | e] self']; trivial.
  now rewrite run_obj.
Qed.

(** X7: [run(all_args=T)] leaves the object exactly as [set_allargs(T)] in
    overwrite mode alone leaves it, whether [T] is accepted or not and
    whether the run returns or raises. *)
Theorem run_override_object (T : list value) (w : World) :
  obj (snd (run sched workers (Some T) w)) = snd (set_allargs T "w" (obj w)).
Proof.
  exact (run_override_obj T w).
Qed.

(** X8: [run(all_args=T)] with an element of [T] that is not a tuple raises
    the [TypeError] of [set_allargs] before any pool exists: nothing is
    submitted, no event happens, and the registry has been cleared. *)
Theorem run_override_malformed (T : list value) (w : World) :
  (exists args, In args T /\ isinstance_tuple args = false) ->
  run sched workers (Some T) w =
  (Raise shape_error, mkWorld (with_all_args [] (obj w)) (trace w)).
Proof.
  intros Hbad. rewrite run_override_unfold.
  now rewrite (set_allargs_rejects (obj w) T "w" Hbad).
Qed.

(** X9: with a pool size that is not positive, [run] raises the
    [ValueError] of the pool constructor and nothing is submitted; an
    override of tuples has replaced the registry all the same. *)
Theorem run_refused_pool_size (T : list value) (w : World) :
  valid_workers workers = false ->
  Forall (fun args => isinstance_tuple args = true) T ->
  run sched workers None w =
    (Raise (ValueError "max_workers must be greater than 0"), w) /\
  run sched workers (Some T) w =
    (Raise (ValueError "max_workers must be greater than 0"),
     mkWorld (mkPD (__f (obj w)) T (len T)) (trace w)).
Proof.
  intros Hworkers HT. split.
  - now apply run_refused.
  - rewrite run_override_unfold, (set_allargs_accepts (obj w) "w" HT).
    now rewrite run_refused.
Qed.

(** X10: once the pool exists it is shut down, whatever the registry holds
    and whether the submission goes through or raises: the events of the run
    start with the creation of the pool and end with its shutdown, and the
    object is untouched. *)
Theorem run_pool_shut_down (w : World) :
  valid_workers workers = true ->
  exists r mid,
    run sched workers None w =
    (r, mkWorld (obj w)
          (trace w ++ PoolCreated workers :: mid ++ [PoolShutdown])).
Proof.
  intros Hworkers.
  destruct (run_any (__f (obj w)) (__all_args (obj w)) Hworkers)
    as (r & mid & Hrun).
  exists r, mid. now apply Hrun.
Qed.

(** X11: [run] never reads the cached unit count: with any other value in
    [__num_of_process], the outcome, the events and the registry afterwards
    are the same. *)
Theorem run_ignores_num_of_process (self : ProcessDivisionier) (n : Z)
    (all_args : option (list value)) (tr : list event) :
  let w := mkWorld self tr in
  let w' := mkWorld (with_num_of_process n self) tr in
  fst (run sched workers all_args w') = fst (run sched workers all_args w) /\
  trace (snd (run sched workers all_args w')) =
    trace (snd (run sched workers all_args w)) /\
  __all_args (obj (snd (run sched workers all_args w'))) =
    __all_args (obj (snd (run sched workers all_args w))).
Proof.
  intros w w'.
  assert (Hnone : forall s, fst (run sched workers None
                                   (mkWorld (with_num_of_process n s) tr)) =
                            fst (run sched workers None (mkWorld s tr)) /\
                            trace (snd (run sched workers None
                                   (mkWorld (with_num_of_process n s) tr))) =
                            trace (snd (run sched workers None (mkWorld s tr)))).
  { intros s.
    destruct (run_none_any (__f s) (__all_args s)) as (r & evs & Hrun).
    rewrite (Hrun (mkWorld (with_num_of_process n s) tr) eq_refl eq_refl).
    rewrite (Hrun (mkWorld s tr) eq_refl eq_refl). split; reflexivity. }
  destruct all_args as [T |].
  - subst w w'. rewrite !run_override_unfold. cbn [obj trace].
    destruct (existsb (fun args => negb (isinstance_tuple args)) T) eqn:Hcheck.
    + apply existsb_non_tuple in Hcheck.
      rewrite !(set_allargs_rejects _ T "w" Hcheck). simpl. repeat split.
    + assert (HT : Forall (fun args => isinstance_tuple args = true) T).
      { apply Forall_forall. intros args Hin.
        destruct (isinstance_tuple args) eqn:Hty; trivial.
        assert (Hbad : exists a, In a T /\ isinstance_tuple a = false)
          by (exists args; now split).
        apply existsb_non_tuple in Hbad. congruence. }
      rewrite !(set_allargs_accepts _ "w" HT). simpl. repeat split.
  - destruct (Hnone self) as (Hfst & Htrace). repeat split; trivial.
    subst w w'. now rewrite !run_obj.
Qed.
Lemma logged_app (tr1 tr2 : list event) :
  logged (tr1 ++ tr2) = logged tr1 ++ logged tr2.
Proof.
  induction tr1 as [| ev tr1 IH]; simpl; trivial.
  destruct ev; simpl; now rewrite IH.
Qed.

Lemma logged_submissions (registry : list value) :
  logged (submissions registry) = [].
Proof.
  induction registry as [| args registry IH]; simpl; trivial.
  rewrite logged_app, IH. now destruct (unpack args).
Qed.

Lemma logged_callback_events (fs : list Future) :
  logged (callback_events fs) = failures fs.
Proof.
  induction fs as [| future fs IH]; simpl; trivial.
  destruct future; simpl; now rewrite IH.
Qed.

Lemma successes_failures_length (fs : list Future) :
  (List.length (successes fs) + List.length (failures fs))%nat =
  List.length fs.
Proof.
  induction fs as [| future fs IH]; simpl; trivial.
  destruct future; simpl; rewrite ?Nat.add_succ_r; now rewrite IH.
Qed.

(** X12: on a registry of [n] tuples, with a worker function whose units
    each return or raise an instance of [Exception], [run()] returns: the
    list holds the results of the units that returned, the exceptions of the
    others are logged and dropped, the progress bar is advanced [n] times,
    and results and dropped exceptions add up to [n]. *)
Theorem run_collects_successes_only (w : World) :
  valid_workers workers = true ->
  registry_ok (obj w) ->
  completion_order (List.length (__all_args (obj w))) sched ->
  exists results evs,
    run sched workers None w =
      (Return results, mkWorld (obj w) (trace w ++ evs)) /\
    Permutation results
      (successes (futures_of (__f (obj w)) (__all_args (obj w)))) /\
    Permutation (logged evs)
      (failures (futures_of (__f (obj w)) (__all_args (obj w)))) /\
    advances evs = List.length (__all_args (obj w)) /\
    (List.length results + List.length (logged evs))%nat =
      List.length (__all_args (obj w)).
Proof.
  intros Hworkers Hreg Hsched.
  rewrite (@run_spec sched workers w Hworkers Hreg).
  set (fs := futures_of (__f (obj w)) (__all_args (obj w))).
  assert (Hlen : List.length fs = List.length (__all_args (obj w)))
    by now apply futures_of_length.
  assert (Hperm : Permutation (completed fs sched) fs)
    by (apply completed_all; now rewrite Hlen).
  assert (Hlogged :
            logged (PoolCreated workers :: submissions (__all_args (obj w)) ++
                    PbarCreated (Z.of_nat (List.length fs)) ::
                    callback_events (completed fs sched) ++ [PoolShutdown]) =
            failures (completed fs sched)).
  { cbn [logged]. rewrite logged_app, logged_submissions. cbn [logged app].
    rewrite logged_app, logged_callback_events. simpl. apply app_nil_r. }
  do 2 eexists. split; [reflexivity |].
  rewrite Hlogged. repeat split.
  - unfold successes. now apply Permutation_flat_map.
  - unfold failures. now apply Permutation_flat_map.
  - cbn [advances]. rewrite advances_app, advances_submissions.
    cbn [advances Nat.add]. rewrite advances_app, advances_callback_events.
    rewrite (Permutation_length Hperm), Hlen. simpl. apply Nat.add_0_r.
  - rewrite successes_failures_length, (Permutation_length Hperm). exact Hlen.
Qed.

(** X13: when every unit returns, the list that [run()] returns is in
    completion order: its [k]-th element is the result of the unit that
    finished [k]-th, not of the [k]-th argument tuple. *)
Theorem run_results_in_completion_order (w : World) :
  valid_workers workers = true ->
  registry_ok (obj w) ->
  always_succeeds (obj w) ->
  completion_order (List.length (__all_args (obj w))) sched ->
  exists results,
    fst (run sched workers None w) = Return results /\
    forall k i items,
      nth_error sched k = Some i ->
      nth_error (__all_args (obj w)) i = Some (VTuple items) ->
      exists r, __f (obj w) items = Return r /\
                nth_error results k = Some r.
Proof.
  intros Hworkers Hreg Hfn Hsched.
  rewrite (@run_spec sched workers w Hworkers Hreg).
  set (fs := futures_of (__f (obj w)) (__all_args (obj w))).
  eexists. split; [reflexivity |].
  intros k i items Hk Hi.
  destruct (Hfn items (nth_error_In _ _ Hi)) as (r & Hr).
  exists r. split; trivial.
  apply successes_completed_nth with (i := i); trivial.
  - intros j Hj.
    apply (Permutation_in _ Hsched), in_seq in Hj.
    rewrite <- (futures_of_length (__f (obj w)) Hreg) in Hj. fold fs in Hj.
    destruct (nth_error fs j) as [future |] eqn:Hfuture.
    + pose proof (futures_of_succeed (__f (obj w)) Hfn Hreg) as Hok.
      rewrite Forall_forall in Hok.
      destruct (Hok future (nth_error_In _ _ Hfuture)) as (rj & ->).
      now exists rj.
    + apply nth_error_None in Hfuture. lia.
  - unfold fs. rewrite (nth_error_futures_of (__f (obj w)) Hreg i Hi).
    now rewrite Hr.
Qed.

(** X14: every unit is submitted, in registry order, before the progress
    bar is created and before any callback runs; the total of the progress
    bar is the length of the registry. *)
Theorem run_submits_all_first (w : World) :
  valid_workers workers = true ->
  registry_ok (obj w) ->
  exists r before after,
    run sched workers None w =
      (r, mkWorld (obj w)
            (trace w ++ before ++
             PbarCreated (len (__all_args (obj w))) :: after)) /\
    submitted before = __all_args (obj w) /\
    advances before = O /\
    logged before = [] /\
    submitted after = [].
Proof.
  intros Hworkers Hreg.
  rewrite (@run_spec sched workers w Hworkers Hreg).
  rewrite (futures_of_length (__f (obj w)) Hreg).
  exists (Return (successes (completed
            (futures_of (__f (obj w)) (__all_args (obj w))) sched))),
         (PoolCreated workers :: submissions (__all_args (obj w))),
         (callback_events (completed
            (futures_of (__f (obj w)) (__all_args (obj w))) sched) ++
          [PoolShutdown]).
  repeat split.
  - cbn [submitted]. now apply submitted_submissions.
  - cbn [advances]. apply advances_submissions.
  - cbn [logged]. apply logged_submissions.
  - now rewrite submitted_app, submitted_callback_events.
Qed.
End RunMore.

(** * Invariants over sequences of calls *)

Section Session.

Lemma on_self_obj (A : Type) (m : M ProcessDivisionier A) (w : World) :
  obj (snd (on_self m w)) = snd (m (obj w)).
Proof.
  unfold on_self. now destruct (m (obj w)).
Qed.

Lemma set_allargs_func (all_args : list value) (mode : string)
    (self : ProcessDivisionier) :
  __f (snd (set_allargs all_args mode self)) = __f self.
Proof.
  unfold set_allargs, bind.
  destruct (String.eqb mode "w"); simpl;
    destruct (existsb _ all_args); reflexivity.
Qed.

Lemma perform_registry_ok (c : call) (w : World) :
  registry_ok (obj w) -> registry_ok (obj (perform c w)).
Proof.
  intros Hreg. destruct c as [| args | all_args mode | n | sched workers oa];
    simpl; rewrite ?on_self_obj.
  - exact Hreg.
  - now apply registry_ok_add_args.
  - now apply registry_ok_set_allargs.
  - apply registry_ok_set_processes.
  - destruct oa as [T |].
    + rewrite run_override_obj. now apply registry_ok_set_allargs.
    + now rewrite run_obj.
Qed.

Lemma perform_func (c : call) (w : World) :
  __f (obj (perform c w)) = __f (obj w).
Proof.
  destruct c as [| args | all_args mode | n | sched workers oa];
    simpl; rewrite ?on_self_obj; trivial.
  - apply set_allargs_func.
  - destruct oa as [T |].
    + rewrite run_override_obj. apply set_allargs_func.
    + now rewrite run_obj.
Qed.

Lemma fold_perform_invariant (P : World -> Prop) :
  (forall c w, P w -> P (perform c w)) ->
  forall calls w, P w -> P (fold_left (fun w c => perform c w) calls w).
Proof.
  intros Hstep calls.
  induction calls as [| c calls IH]; intros w Hw; simpl; trivial.
  apply IH, Hstep, Hw.
Qed.

Lemma session_registry_ok (func : FUNC) (calls : list call) :
  registry_ok (obj (session func calls)).
Proof.
  apply (fold_perform_invariant (fun w => registry_ok (obj w))).
  - exact perform_registry_ok.
  - constructor.
Qed.

(** X15: after construction and any sequence of calls of the public
    methods, returning or raising, with any arguments, the registry holds
    tuples only. *)
Theorem session_registry_holds_tuples (func : FUNC) (calls : list call) :
  Forall (fun args => isinstance_tuple args = true)
         (__all_args (obj (session func calls))).
Proof.
  exact (session_registry_ok func calls).
Qed.

(** X16: no method replaces the worker function given to the constructor. *)
Theorem session_keeps_worker_function (func : FUNC) (calls : list call) :
  __f (obj (session func calls)) = func.
Proof.
  apply (fold_perform_invariant (fun w => __f (obj w) = func)).
  - intros c w Hw. now rewrite perform_func.
  - reflexivity.
Qed.

(** X17: in a state reached through the public methods, with a worker
    function whose units each return or raise an instance of [Exception],
    [run()] with an accepted pool size and no override returns a list: no
    such exception of a unit leaves [run()]. *)
Theorem session_run_drops_unit_exceptions (func : FUNC) (calls : list call)
    (sched : list nat) (workers : option Z) :
  valid_workers workers = true ->
  exists results,
    fst (run sched workers None (session func calls)) = Return results.
Proof.
  intros Hworkers.
  rewrite (@run_spec sched workers (session func calls) Hworkers
             (session_registry_ok func calls)).
  eexists. reflexivity.
Qed.
End Session.

(** * The further properties at concrete inputs *)

Lemma add_args_each_is_set_allargs_append_witness :
  add_each [[VInt 2]; []] registry_1 =
  snd (set_allargs [VTuple [VInt 2]; VTuple []] "a" registry_1).
Proof.
  apply (@add_args_each_is_set_allargs_append registry_1 [[VInt 2]; []]).
  discriminate.
Defined.

Lemma set_allargs_other_mode_appends_witness :
  set_allargs [VTuple [VInt 2]] "W" registry_1 =
  set_allargs [VTuple [VInt 2]] "a" registry_1.
Proof.
  apply (@set_allargs_other_mode_appends registry_1 [VTuple [VInt 2]] "W").
  discriminate.
Defined.

Lemma set_allargs_append_twice_witness :
  (set_allargs [VTuple [VInt 2]] "a" ;; set_allargs [VTuple []] "a")
    registry_1 =
  set_allargs [VTuple [VInt 2]; VTuple []] "a" registry_1.
Proof.
  apply (@set_allargs_append_twice registry_1 [VTuple [VInt 2]] [VTuple []]);
    repeat constructor.
Defined.

Lemma set_allargs_overwrite_forgets_witness :
  (set_allargs [VTuple [VInt 2]] "a" ;; set_allargs [VTuple []] "w")
    registry_1 = set_allargs [VTuple []] "w" registry_1 /\
  snd (set_allargs [VTuple []] "w" registry_1) = mkPD square [VTuple []] 1.
Proof.
  apply (@set_allargs_overwrite_forgets registry_1 [VTuple [VInt 2]]
           [VTuple []] "a"); repeat constructor.
Defined.

Lemma set_processes_negative_witness :
  __all_args (snd (set_processes (-2) registry_1)) = [] /\
  __num_of_process (snd (set_processes (-2) registry_1)) = -2 /\
  ~ count_cached (snd (set_processes (-2) registry_1)).
Proof.
  destruct (@set_processes_negative registry_1 (-2) eq_refl)
    as (_ & Hargs & Hnum & Hcount).
  split; [exact Hargs | split; [exact Hnum | exact Hcount]].
Defined.

Lemma add_args_empty_is_set_processes_witness :
  Nat.iter 3 (fun s => snd (add_args [] s)) (init square) =
  snd (set_processes 3 (init square)).
Proof.
  apply (@add_args_empty_is_set_processes (init square) 3).
  - apply Nat.lt_0_succ.
  - reflexivity.
Defined.

Lemma run_override_malformed_witness :
  run [0]%nat None (Some [VInt 5]) world_2_3 =
  (Raise shape_error, mkWorld (mkPD square [] 2) []).
Proof.
  apply (@run_override_malformed [0]%nat None [VInt 5] world_2_3).
  exists (VInt 5). split; [now left | reflexivity].
Defined.

Lemma run_refused_pool_size_witness :
  run [0]%nat (Some 0) None world_2_3 =
    (Raise (ValueError "max_workers must be greater than 0"), world_2_3) /\
  run [0]%nat (Some 0) (Some [VTuple [VInt 7]]) world_2_3 =
    (Raise (ValueError "max_workers must be greater than 0"),
     mkWorld (mkPD square [VTuple [VInt 7]] 1) []).
Proof.
  apply (@run_refused_pool_size [0]%nat (Some 0) [VTuple [VInt 7]] world_2_3).
  - reflexivity.
  - repeat constructor.
Defined.

Lemma run_pool_shut_down_witness :
  exists r mid,
    run [1; 0]%nat (Some 2) None
        (mkWorld (mkPD square [VTuple [VInt 2]; VInt 3] 2) []) =
    (r, mkWorld (mkPD square [VTuple [VInt 2]; VInt 3] 2)
          ([] ++ PoolCreated (Some 2) :: mid ++ [PoolShutdown])).
Proof.
  apply (@run_pool_shut_down [1; 0]%nat (Some 2)
           (mkWorld (mkPD square [VTuple [VInt 2]; VInt 3] 2) [])).
  reflexivity.
Defined.

Lemma run_collects_successes_only_witness :
  exists results evs,
    run [3; 2; 1; 0]%nat None None
        (mkWorld (mkPD square_not_3 one_to_four 4) []) =
      (Return results,
       mkWorld (mkPD square_not_3 one_to_four 4) ([] ++ evs)) /\
    Permutation results [VInt 1; VInt 4; VInt 16] /\
    Permutation (logged evs) [ValueError "x == 3"] /\
    advances evs = 4%nat /\
    (List.length results + List.length (logged evs))%nat = 4%nat.
Proof.
  apply (@run_collects_successes_only [3; 2; 1; 0]%nat None
           (mkWorld (mkPD square_not_3 one_to_four 4) [])).
  - reflexivity.
  - repeat constructor.
  - apply Permutation_sym. exact (Permutation_rev [0; 1; 2; 3]%nat).
Defined.

Lemma run_results_in_completion_order_witness :
  exists results,
    fst (run [1; 0]%nat None None world_2_3) = Return results /\
    forall k i items,
      nth_error [1; 0]%nat k = Some i ->
      nth_error [VTuple [VInt 2]; VTuple [VInt 3]] i = Some (VTuple items) ->
      exists r, square items = Return r /\ nth_error results k = Some r.
Proof.
  apply (@run_results_in_completion_order [1; 0]%nat None world_2_3).
  - reflexivity.
  - repeat constructor.
  - intros items [Hin | [Hin | []]]; injection Hin as <-;
      eexists; reflexivity.
  - apply perm_swap.
Defined.

Lemma run_submits_all_first_witness :
  exists r before after,
    run [1; 0]%nat None None world_2_3 =
      (r, mkWorld (obj world_2_3)
            (trace world_2_3 ++ before ++ PbarCreated 2 :: after)) /\
    submitted before = [VTuple [VInt 2]; VTuple [VInt 3]] /\
    advances before = O /\
    logged before = [] /\
    submitted after = [].
Proof.
  apply (@run_submits_all_first [1; 0]%nat None world_2_3).
  - reflexivity.
  - repeat constructor.
Defined.

Lemma session_run_drops_unit_exceptions_witness :
  exists results,
    fst (run [0]%nat None None
             (session square_not_3
                [CallSetAllargs [VInt 5] "w"; CallAddArgs [VInt 3]])) =
    Return results.
Proof.
  apply (@session_run_drops_unit_exceptions square_not_3
           [CallSetAllargs [VInt 5] "w"; CallAddArgs [VInt 3]] [0]%nat None).
  reflexivity.
Defined.
